(** * Roland SAV case tracker ([scripts/roland_sav.py]): embedding and properties

    The script keeps a list of service cases in one JSON file.  This file
    embeds its data model ([ServiceCase]), its persistence layer
    ([CaseRepository]), the id policy ([_create_case_id]) and the four command
    handlers with [main], and proves properties of them.

    Modelling decisions.
    - Python [int] is [Z]; Python [str] is [string].
    - The process environment is a [world]: the files (path to the JSON document
      a file holds), the UTC clock, and the trace of what the process wrote and
      printed.  Code runs in the monad [M], which threads the world and carries
      a raised exception.
    - The [json] library is not part of the script.  A file holds the JSON
      document itself (type [json]) and not its text: [json.dump] followed by
      [json.load] is the identity on documents made of lists, objects with
      string keys, integers and strings.  Floats are left out of [json].
    - Opening a file for reading or writing succeeds whenever the script's own
      check allows it; permission and disk faults are outside the model.
    - [datetime.utcnow()] reads the clock of the world.  The clock stands still
      while a piece of the script runs; the environment moves it between two
      runs ([set_clock]).
    - The class statement of [ServiceCase] is executed once per process, when
      the module is imported.  What it leaves behind is the class object
      ([ServiceCase_class]); the code that uses the class takes it as [cls]. *)

From stdpp Require Import gmap strings list fin_maps pretty.

Set Warnings "-register-all".
Open Scope Z_scope.

(** ** Library values: timestamps and JSON documents *)

(** A naive [datetime] as [datetime.utcnow()] returns it. *)
Record datetime := {
  year : N; month : N; day : N;
  hour : N; minute : N; second : N; microsecond : N
}.

Fixpoint zeros (n : nat) : string :=
  match n with
  | O => EmptyString
  | S n => "0" +:+ zeros n
  end.

(** [%0wd] for a natural number. *)
Definition zfill (width : nat) (n : N) : string :=
  let s := pretty n in
  zeros (width - String.length s) +:+ s.

(** [datetime.isoformat()]: [YYYY-MM-DDTHH:MM:SS], followed by [.ffffff] when
    the microsecond field is not zero. *)
Definition isoformat (t : datetime) : string :=
  zfill 4 (year t) +:+ "-" +:+ zfill 2 (month t) +:+ "-" +:+ zfill 2 (day t)
  +:+ "T" +:+ zfill 2 (hour t) +:+ ":" +:+ zfill 2 (minute t)
  +:+ ":" +:+ zfill 2 (second t)
  +:+ (if bool_decide (microsecond t = 0%N) then EmptyString
       else "." +:+ zfill 6 (microsecond t)).

(** What [json.load] returns and [json.dump] accepts. *)
Inductive json :=
| JNull
| JBool (b : bool)
| JInt (z : Z)
| JStr (s : string)
| JList (l : list json)
| JDict (d : gmap string json).

(** ** Exceptions, the world and the monad *)

Inductive exn :=
| TypeError
| AttributeError
| FileNotFoundError
| IllTyped.
(** [IllTyped] is not a Python exception.  It marks a record whose value has
    another type than the field's annotation ([case_id: int], the others
    [str]): Python builds the object all the same, the embedding stops. *)

Inductive event :=
| Stdout (line : string)
| FileWrite (path : string) (doc : json).

Record world := {
  files : gmap string json;
  clock : datetime;
  trace : list event
}.

Inductive result (A : Type) :=
| Ok (a : A)
| Raise (e : exn).
Arguments Ok {A} a.
Arguments Raise {A} e.

Definition M (A : Type) : Type := world → result A * world.

Definition ret {A} (a : A) : M A := λ w, (Ok a, w).
Definition raise {A} (e : exn) : M A := λ w, (Raise e, w).
Definition bind {A B} (m : M A) (k : A → M B) : M B :=
  λ w, match m w with
       | (Ok a, w') => k a w'
       | (Raise e, w') => (Raise e, w')
       end.

Declare Scope M_scope.
Delimit Scope M_scope with M.
Notation "x <- m ;; k" := (bind m (λ x, k))
  (at level 100, m at next level, right associativity) : M_scope.
Notation "m ;; k" := (bind m (λ _, k))
  (at level 100, right associativity) : M_scope.
Open Scope M_scope.

(** A pure computation that may raise, run inside [M]. *)
Definition lift {A} (r : result A) : M A := λ w, (r, w).

Definition result_bind {A B} (r : result A) (k : A → result B) : result B :=
  match r with
  | Ok a => k a
  | Raise e => Raise e
  end.

(** [datetime.utcnow()] *)
Definition utcnow : M datetime := λ w, (Ok (clock w), w).

(** [print(line)] *)
Definition print (line : string) : M unit :=
  λ w, (Ok (), {| files := files w; clock := clock w;
                  trace := trace w ++ [Stdout line] |}).

(** [path.exists()] *)
Definition exists_ (path : string) : M bool :=
  λ w, (Ok (bool_decide (is_Some (files w !! path))), w).

(** [with path.open("r") as fp: json.load(fp)] *)
Definition read_json (path : string) : M json :=
  λ w, match files w !! path with
       | Some doc => (Ok doc, w)
       | None => (Raise FileNotFoundError, w)
       end.

(** [with path.open("w") as fp: json.dump(doc, fp, ...)]: the file is replaced
    as a whole. *)
Definition write_json (path : string) (doc : json) : M unit :=
  λ w, (Ok (), {| files := <[path := doc]> (files w); clock := clock w;
                  trace := trace w ++ [FileWrite path doc] |}).

(** ** The entity: [ServiceCase] *)

Record ServiceCase := {
  case_id : Z;
  customer_name : string;
  contact_email : string;
  product_model : string;
  serial_number : string;
  issue_description : string;
  status : string;
  created_at : string;
  updated_at : string;
  resolution_notes : string
}.

(** What executing the [class ServiceCase] statement leaves in the class: the
    default values of [created_at] and [updated_at].  The two default
    expressions [datetime.utcnow().isoformat()] are evaluated there, once. *)
Record ServiceCase_class := {
  created_at_default : string;
  updated_at_default : string
}.

Definition define_ServiceCase : M ServiceCase_class :=
  t1 <- utcnow ;;
  t2 <- utcnow ;;
  ret {| created_at_default := isoformat t1;
         updated_at_default := isoformat t2 |}.

Definition field_names : list string :=
  ["case_id"; "customer_name"; "contact_email"; "product_model";
   "serial_number"; "issue_description"; "status"; "created_at";
   "updated_at"; "resolution_notes"].

(** The fields without a default. *)
Definition required_names : list string :=
  ["case_id"; "customer_name"; "contact_email"; "product_model";
   "serial_number"; "issue_description"].

Notation "'let?' x := r 'in' k" := (result_bind r (λ x, k))
  (at level 10, x name, r at level 100, k at level 200).

Definition as_int (v : json) : result Z :=
  match v with
  | JInt z => Ok z
  | _ => Raise IllTyped
  end.

Definition as_str (v : json) : result string :=
  match v with
  | JStr s => Ok s
  | _ => Raise IllTyped
  end.

Definition keyword {A} (conv : json → result A) (d : gmap string json)
    (k : string) : result (option A) :=
  match d !! k with
  | None => Ok None
  | Some v => let? a := conv v in Ok (Some a)
  end.

Definition positional {A} (conv : json → result A) (d : gmap string json)
    (k : string) : result A :=
  match d !! k with
  | None => Raise TypeError
  | Some v => conv v
  end.

Fixpoint mapM_result {A B} (f : A → result B) (l : list A) : result (list B) :=
  match l with
  | [] => Ok []
  | a :: l =>
      let? b := f a in
      let? bs := mapM_result f l in
      Ok (b :: bs)
  end.

(** The one-character strings that iterating over a [str] yields. *)
Fixpoint characters (s : string) : list string :=
  match s with
  | EmptyString => []
  | String c s => String c EmptyString :: characters s
  end.

Section Script.

(** The class object, as the module's import left it. *)
Variable cls : ServiceCase_class.

(** The generated [__init__]: a field left out takes its default. *)
Definition ServiceCase_init (case_id : Z)
    (customer_name contact_email product_model serial_number
       issue_description : string)
    (status created_at updated_at resolution_notes : option string)
    : ServiceCase :=
  {| case_id := case_id;
     customer_name := customer_name;
     contact_email := contact_email;
     product_model := product_model;
     serial_number := serial_number;
     issue_description := issue_description;
     status := default "open" status;
     created_at := default (created_at_default cls) created_at;
     updated_at := default (updated_at_default cls) updated_at;
     resolution_notes := default EmptyString resolution_notes |}.

(** [cls] called with the items of [data] as keyword arguments: a
    [TypeError] when [data] is no mapping, has a key that is
    no field, or lacks a field without default. *)
Definition from_dict (data : json) : result ServiceCase :=
  match data with
  | JDict d =>
      if negb (bool_decide (dom d ⊆ (list_to_set field_names : gset string)))
      then Raise TypeError
      else if negb (forallb (λ k, bool_decide (is_Some (d !! k))) required_names)
      then Raise TypeError
      else
        let? cid := positional as_int d "case_id" in
        let? cn := positional as_str d "customer_name" in
        let? ce := positional as_str d "contact_email" in
        let? pm := positional as_str d "product_model" in
        let? sn := positional as_str d "serial_number" in
        let? idesc := positional as_str d "issue_description" in
        let? st := keyword as_str d "status" in
        let? ca := keyword as_str d "created_at" in
        let? ua := keyword as_str d "updated_at" in
        let? rn := keyword as_str d "resolution_notes" in
        Ok (ServiceCase_init cid cn ce pm sn idesc st ca ua rn)
  | _ => Raise TypeError
  end.

(** [dataclasses.asdict(case)] *)
Definition asdict (case : ServiceCase) : json :=
  JDict (list_to_map
    [("case_id", JInt (case_id case));
     ("customer_name", JStr (customer_name case));
     ("contact_email", JStr (contact_email case));
     ("product_model", JStr (product_model case));
     ("serial_number", JStr (serial_number case));
     ("issue_description", JStr (issue_description case));
     ("status", JStr (status case));
     ("created_at", JStr (created_at case));
     ("updated_at", JStr (updated_at case));
     ("resolution_notes", JStr (resolution_notes case))]).

(** [self.update_status(new_status, notes)]; the result is the object after
    the call. *)
Definition update_status (self : ServiceCase) (new_status : string)
    (notes : option string) : M ServiceCase :=
  let self :=
    {| case_id := case_id self;
       customer_name := customer_name self;
       contact_email := contact_email self;
       product_model := product_model self;
       serial_number := serial_number self;
       issue_description := issue_description self;
       status := new_status;
       created_at := created_at self;
       updated_at := updated_at self;
       resolution_notes := resolution_notes self |} in
  let self :=
    match notes with
    | Some notes =>
        {| case_id := case_id self;
           customer_name := customer_name self;
           contact_email := contact_email self;
           product_model := product_model self;
           serial_number := serial_number self;
           issue_description := issue_description self;
           status := status self;
           created_at := created_at self;
           updated_at := updated_at self;
           resolution_notes := notes |}
    | None => self
    end in
  now <- utcnow ;;
  ret {| case_id := case_id self;
         customer_name := customer_name self;
         contact_email := contact_email self;
         product_model := product_model self;
         serial_number := serial_number self;
         issue_description := issue_description self;
         status := status self;
         created_at := created_at self;
         updated_at := isoformat now;
         resolution_notes := resolution_notes self |}.

(** ** The repository: [CaseRepository] *)

Definition DEFAULT_DATA_FILE : string := "sav_cases.json".

Record CaseRepository := { file_path : string }.

(** What [for item in raw_cases] yields: the items of a list, the keys of an
    object, the characters of a string; other documents are not iterable. *)
Definition iterate (doc : json) : result (list json) :=
  match doc with
  | JList l => Ok l
  | JDict d => Ok (JStr <$> (map_to_list d).*1)
  | JStr s => Ok (JStr <$> characters s)
  | _ => Raise TypeError
  end.

Definition load (self : CaseRepository) : M (list ServiceCase) :=
  present <- exists_ (file_path self) ;;
  if negb present then ret []
  else
    raw_cases <- read_json (file_path self) ;;
    items <- lift (iterate raw_cases) ;;
    lift (mapM_result from_dict items).

Definition save (self : CaseRepository) (cases : list ServiceCase) : M unit :=
  let data := asdict <$> cases in
  write_json (file_path self) (JList data).

(** [max(iterable)] on integers, after its first item: the running maximum is
    replaced by an item that is greater. *)
Fixpoint py_max (best : Z) (items : list Z) : Z :=
  match items with
  | [] => best
  | x :: items => py_max (if bool_decide (best < x) then x else best) items
  end.

Definition _create_case_id (cases : list ServiceCase) : Z :=
  match cases with
  | [] => 1
  | c :: cs => py_max (case_id c) (case_id <$> cs) + 1
  end.

(** ** The command handlers *)

(** The namespace [parse_args] returns, by subcommand: [data_file] and the
    subcommand's own arguments.  [case_id] went through [int]; an option that
    was not given is [None]. *)
Inductive Namespace :=
| NsInit (data_file : string)
| NsAdd (data_file : string)
    (customer_name contact_email product_model serial_number
       issue_description : string)
| NsList (data_file : string) (status : option string)
| NsUpdate (data_file : string) (case_id : Z) (status : string)
    (resolution_notes : option string).

Definition data_file (args : Namespace) : string :=
  match args with
  | NsInit f => f
  | NsAdd f _ _ _ _ _ => f
  | NsList f _ => f
  | NsUpdate f _ _ _ => f
  end.

Definition handle_init (repo : CaseRepository) : M unit :=
  present <- exists_ (file_path repo) ;;
  if present then
    print ("Datenbestand existiert bereits unter " +:+ file_path repo +:+ ".")
  else
    save repo [] ;;
    print ("Neue SAV-Datenbank erstellt: " +:+ file_path repo).

Definition handle_add (args : Namespace) (repo : CaseRepository) : M unit :=
  cases <- load repo ;;
  match args with
  | NsAdd _ customer_name contact_email product_model serial_number
      issue_description =>
      let new_case :=
        ServiceCase_init (_create_case_id cases) customer_name contact_email
          product_model serial_number issue_description None None None None in
      let cases := cases ++ [new_case] in
      save repo cases ;;
      print ("Fall #" +:+ pretty (case_id new_case)
             +:+ " erfolgreich angelegt.")
  | _ => raise AttributeError
  end.

Fixpoint spaces (n : nat) : string :=
  match n with
  | O => EmptyString
  | S n => " " +:+ spaces n
  end.

(** The format [{s:<width}] *)
Definition ljust (width : nat) (s : string) : string :=
  s +:+ spaces (width - String.length s).

Fixpoint dashes (n : nat) : string :=
  match n with
  | O => EmptyString
  | S n => "-" +:+ dashes n
  end.

Definition newline : string := String (Ascii.ascii_of_nat 10) EmptyString.

Fixpoint print_rows (rows : list ServiceCase) : M unit :=
  match rows with
  | [] => ret ()
  | case :: rows =>
      print (ljust 4 (pretty (case_id case)) +:+ " "
             +:+ ljust 12 (status case) +:+ " "
             +:+ ljust 20 (customer_name case) +:+ " "
             +:+ ljust 15 (product_model case) +:+ " "
             +:+ ljust 25 (updated_at case)) ;;
      print_rows rows
  end.

Definition handle_list (args : Namespace) (repo : CaseRepository) : M unit :=
  cases <- load repo ;;
  match args with
  | NsList _ wanted =>
      let filtered_cases :=
        filter (λ case, wanted = None ∨ wanted = Some (status case)) cases in
      match filtered_cases with
      | [] =>
          let status_info :=
            match wanted with
            | None | Some EmptyString => EmptyString
            | Some s => " mit Status '" +:+ s +:+ "'"
            end in
          print ("Keine Fälle" +:+ status_info +:+ " gefunden.")
      | _ =>
          print (newline +:+ ljust 4 "ID" +:+ " " +:+ ljust 12 "Status" +:+ " "
                 +:+ ljust 20 "Kunde" +:+ " " +:+ ljust 15 "Produkt" +:+ " "
                 +:+ ljust 25 "Aktualisiert") ;;
          print (dashes 85) ;;
          print_rows filtered_cases
      end
  | _ => raise AttributeError
  end.

(** The loop of [handle_update].  [cases] is the list object, [i] the position
    of the iterator and [todo] what it has still to yield.  The case the loop
    updates is the object at position [i] of [cases], so the list that is saved
    holds the updated case there.  Falling out of the loop reaches the last
    [print]. *)
Fixpoint handle_update_loop (wanted : Z) (new_status : string)
    (notes : option string) (repo : CaseRepository)
    (cases : list ServiceCase) (i : nat) (todo : list ServiceCase) : M unit :=
  match todo with
  | [] => print ("Kein Fall mit der ID " +:+ pretty wanted +:+ " gefunden.")
  | case :: todo =>
      if bool_decide (case_id case = wanted) then
        case <- update_status case new_status notes ;;
        let cases := <[i := case]> cases in
        save repo cases ;;
        print ("Fall #" +:+ pretty (case_id case) +:+ " aktualisiert (Status: "
               +:+ status case +:+ ").")
      else handle_update_loop wanted new_status notes repo cases (S i) todo
  end.

Definition handle_update (args : Namespace) (repo : CaseRepository) : M unit :=
  cases <- load repo ;;
  match args with
  | NsUpdate _ wanted new_status notes =>
      handle_update_loop wanted new_status notes repo cases 0 cases
  | _ => raise AttributeError
  end.

(** ** Dispatch *)

(** A handler as a Python function: what it does, with the number of
    positional parameters its [def] has. *)
Inductive handler :=
| Def1 (body : CaseRepository → M unit)
| Def2 (body : Namespace → CaseRepository → M unit).

(** [f(a, r)]: calling a function of one parameter with two arguments is a
    [TypeError]. *)
Definition call2 (f : handler) (a : Namespace) (r : CaseRepository) : M unit :=
  match f with
  | Def1 _ => raise TypeError
  | Def2 body => body a r
  end.

(** [args.func], as the [set_defaults(func=...)] of [build_parser] set it for
    each subcommand. *)
Definition func (args : Namespace) : handler :=
  match args with
  | NsInit _ => Def1 handle_init
  | NsAdd _ _ _ _ _ _ => Def2 handle_add
  | NsList _ _ => Def2 handle_list
  | NsUpdate _ _ _ _ => Def2 handle_update
  end.

(** [main], from the parsed arguments on. *)
Definition main (args : Namespace) : M unit :=
  let repo := {| file_path := data_file args |} in
  call2 (func args) args repo.

End Script.

(** Running the script: the module body defines the class, then [main] runs. *)
Definition script (args : Namespace) : M unit :=
  cls <- define_ServiceCase ;;
  main cls args.

(** ** Auxiliary definitions for the statements *)

(** What [load] makes of the content of the backing file. *)
Definition decode (cls : ServiceCase_class) (content : option json)
    : result (list ServiceCase) :=
  match content with
  | None => Ok []
  | Some doc => let? items := iterate doc in mapM_result (from_dict cls) items
  end.

(** The world after a step of the environment that sets the clock. *)
Definition set_clock (t : datetime) (w : world) : world :=
  {| files := files w; clock := t; trace := trace w |}.

(** The world after [print(line)] and after a write. *)
Definition printed (line : string) (w : world) : world :=
  {| files := files w; clock := clock w; trace := trace w ++ [Stdout line] |}.

Definition written (path : string) (doc : json) (w : world) : world :=
  {| files := <[path := doc]> (files w); clock := clock w;
     trace := trace w ++ [FileWrite path doc] |}.

(** The number of writes in a trace. *)
Definition is_write (e : event) : bool :=
  match e with
  | FileWrite _ _ => true
  | Stdout _ => false
  end.

Definition writes (tr : list event) : nat :=
  length (List.filter is_write tr).

(** [m] is the greatest element of [l]. *)
Definition is_max (m : Z) (l : list Z) : Prop :=
  m ∈ l ∧ Forall (λ x, x ≤ m) l.

(** The backing file at [p] holds what [save] writes for [cases]. *)
Definition stored (p : string) (cases : list ServiceCase) (w : world) : Prop :=
  files w !! p = Some (JList (asdict <$> cases)).

(** The object [self] after [update_status(new_status, notes)] at time [now]. *)
Definition updated (self : ServiceCase) (new_status : string)
    (notes : option string) (now : datetime) : ServiceCase :=
  {| case_id := case_id self;
     customer_name := customer_name self;
     contact_email := contact_email self;
     product_model := product_model self;
     serial_number := serial_number self;
     issue_description := issue_description self;
     status := new_status;
     created_at := created_at self;
     updated_at := isoformat now;
     resolution_notes :=
       match notes with
       | Some n => n
       | None => resolution_notes self
       end |}.

(** The lines [handle_update] prints. *)
Definition not_found_line (wanted : Z) : string :=
  "Kein Fall mit der ID " +:+ pretty wanted +:+ " gefunden.".

Definition updated_line (case : ServiceCase) : string :=
  "Fall #" +:+ pretty (case_id case) +:+ " aktualisiert (Status: "
  +:+ status case +:+ ").".

(** The five texts of an [add] command, the namespace of the command on the
    data file [p], and the case [handle_add] builds from them under the
    identifier [id]. *)
Definition add_args : Type := string * string * string * string * string.

Definition add_cmd (p : string) (a : add_args) : Namespace :=
  let '(cn, ce, pm, sn, idesc) := a in NsAdd p cn ce pm sn idesc.

Definition new_case (cls : ServiceCase_class) (id : Z) (a : add_args)
    : ServiceCase :=
  let '(cn, ce, pm, sn, idesc) := a in
  ServiceCase_init cls id cn ce pm sn idesc None None None None.

(** Calls of [main] one after the other, each with the class object of the
    process that makes the call. *)
Fixpoint run (steps : list (ServiceCase_class * Namespace)) : M unit :=
  match steps with
  | [] => ret ()
  | (cls, args) :: steps => main cls args ;; run steps
  end.

Definition add_step (p : string) (x : ServiceCase_class * add_args)
    : ServiceCase_class * Namespace :=
  (x.1, add_cmd p x.2).

(** The worlds the program can bring about around the data file [p], from a
    world in which the file does not exist or holds the empty store: the clock
    moves, [handle_init] is called, [main] is called on [p] with whatever
    command and class object. *)
Inductive reachable (p : string) : world → Prop :=
| reach_absent w :
    files w !! p = None → reachable p w
| reach_initialised w :
    files w !! p = Some (JList []) → reachable p w
| reach_clock w t :
    reachable p w → reachable p (set_clock t w)
| reach_init w :
    reachable p w → reachable p (handle_init {| file_path := p |} w).2
| reach_main w cls args :
    reachable p w → data_file args = p → reachable p (main cls args w).2.

(** The invariant of the reachable worlds: there is no backing file at [p], or
    it holds what [save] writes for cases with pairwise distinct identifiers. *)
Definition unique_ids (p : string) (w : world) : Prop :=
  files w !! p = None
  ∨ ∃ cases, stored p cases w ∧ NoDup (case_id <$> cases).

(** *** Concrete values for the examples *)

Definition t_import : datetime :=
  {| year := 2024; month := 3; day := 9;
     hour := 7; minute := 5; second := 0; microsecond := 0 |}.

Definition t_later : datetime :=
  {| year := 2024; month := 3; day := 11;
     hour := 16; minute := 40; second := 2; microsecond := 1500 |}.

Definition w_nofile : world :=
  {| files := ∅; clock := t_import; trace := [] |}.

Definition cls_import : ServiceCase_class :=
  {| created_at_default := isoformat t_import;
     updated_at_default := isoformat t_import |}.

Definition db : CaseRepository := {| file_path := "sav_cases.json" |}.

(** The world after [handle_init] where there was no file. *)
Definition w_init : world := (handle_init db w_nofile).2.

Definition jane : add_args :=
  ("Jane Doe", "jane@x.com", "TD-50", "SN123", "No sound from pads").

Definition joe : add_args :=
  ("Joe Roe", "joe@y.org", "FP-30", "SN777", "Key 12 sticks").

(** Two cases under the same identifier 4, after one under 2. *)
Definition case_a : ServiceCase := new_case cls_import 2 jane.
Definition case_b : ServiceCase := new_case cls_import 4 joe.
Definition case_c : ServiceCase := new_case cls_import 4 jane.

Definition w_dup : world :=
  written (file_path db) (JList (asdict <$> [case_a; case_b; case_c])) w_nofile.

(** One process: the store is initialised, and later two cases are added and
    the first is closed. *)
Definition w_two : world :=
  (main cls_import (NsUpdate (file_path db) 1 "closed" (Some "Replaced cable"))
     (main cls_import (add_cmd (file_path db) joe)
        (main cls_import (add_cmd (file_path db) jane)
           (set_clock t_later w_init)).2).2).2.

(** *** Definitions for the further properties *)

(** The row [handle_list] prints for a case, and the head of its table. *)
Definition row_line (case : ServiceCase) : string :=
  ljust 4 (pretty (case_id case)) +:+ " "
  +:+ ljust 12 (status case) +:+ " "
  +:+ ljust 20 (customer_name case) +:+ " "
  +:+ ljust 15 (product_model case) +:+ " "
  +:+ ljust 25 (updated_at case).

Definition header_line : string :=
  newline +:+ ljust 4 "ID" +:+ " " +:+ ljust 12 "Status" +:+ " "
  +:+ ljust 20 "Kunde" +:+ " " +:+ ljust 15 "Produkt" +:+ " "
  +:+ ljust 25 "Aktualisiert".

(** The record of a case without the four fields that have a default, as
    somebody may have written it into the file by hand. *)
Definition required_only (case : ServiceCase) : json :=
  JDict (list_to_map
    [("case_id", JInt (case_id case));
     ("customer_name", JStr (customer_name case));
     ("contact_email", JStr (contact_email case));
     ("product_model", JStr (product_model case));
     ("serial_number", JStr (serial_number case));
     ("issue_description", JStr (issue_description case))]).

(** The case [from_dict] builds from such a record. *)
Definition with_defaults (cls : ServiceCase_class) (case : ServiceCase)
    : ServiceCase :=
  ServiceCase_init cls (case_id case) (customer_name case) (contact_email case)
    (product_model case) (serial_number case) (issue_description case)
    None None None None.

(** The identifiers in the backing file at [p] are 1, 2, ... in the order of
    the cases. *)
Definition consecutive_ids (p : string) (w : world) : Prop :=
  files w !! p = None
  ∨ ∃ cases, stored p cases w
      ∧ case_id <$> cases = Z.of_nat <$> seq 1 (length cases).

(** Worlds whose backing file is no list of records: a number, an empty
    object, a list with [null] after a record. *)
Definition w_number : world := written (file_path db) (JInt 3) w_nofile.

Definition w_object : world := written (file_path db) (JDict ∅) w_nofile.


Definition other_db : CaseRepository := {| file_path := "archive.json" |}.

(** ** The entity *)

Lemma from_dict_asdict cls (case : ServiceCase) :
  from_dict cls (asdict case) = Ok case.
Proof. destruct case. vm_compute. reflexivity. Qed.

Lemma mapM_from_dict_asdict cls (cases : list ServiceCase) :
  mapM_result (from_dict cls) (asdict <$> cases) = Ok cases.
Proof.
  induction cases as [|c cases IH]; [done|].
  rewrite fmap_cons. cbn [mapM_result].
  by rewrite from_dict_asdict, IH.
Qed.

(** C7.  Turning a case into a mapping with [asdict] and building a case back
    from that mapping with [from_dict] gives the case one started from, field
    by field; the defaults of the class play no part. *)
Theorem asdict_from_dict_roundtrip (cls : ServiceCase_class) (case : ServiceCase) :
  from_dict cls (asdict case) = Ok case.
Proof. apply from_dict_asdict. Qed.

(** C3.  [update_status] cannot fail and touches nothing but the object: the
    status becomes [new_status]; the notes become [notes] when given and stay
    otherwise; [updated_at] is the current UTC time in ISO format; the other
    seven fields stay. *)
Theorem update_status_spec (self : ServiceCase) (new_status : string)
    (notes : option string) (w : world) :
  ∃ self', update_status self new_status notes w = (Ok self', w)
    ∧ status self' = new_status
    ∧ resolution_notes self'
      = match notes with
        | Some n => n
        | None => resolution_notes self
        end
    ∧ updated_at self' = isoformat (clock w)
    ∧ case_id self' = case_id self
    ∧ customer_name self' = customer_name self
    ∧ contact_email self' = contact_email self
    ∧ product_model self' = product_model self
    ∧ serial_number self' = serial_number self
    ∧ issue_description self' = issue_description self
    ∧ created_at self' = created_at self.
Proof.
  unfold update_status, bind, utcnow, ret.
  eexists. split; [reflexivity|].
  destruct notes; repeat split.
Qed.

(** ** The repository *)

Lemma load_decode cls repo w :
  load cls repo w = (decode cls (files w !! file_path repo), w).
Proof.
  unfold load, exists_, read_json, bind, lift, ret, decode.
  destruct (files w !! file_path repo) as [doc|] eqn:E; simpl; [|done].
  rewrite E. by destruct (iterate doc).
Qed.

Lemma save_written repo cases w :
  save repo cases w = (Ok (), written (file_path repo) (JList (asdict <$> cases)) w).
Proof. reflexivity. Qed.

Lemma decode_saved cls cases :
  decode cls (Some (JList (asdict <$> cases))) = Ok cases.
Proof. cbn. apply mapM_from_dict_asdict. Qed.

Lemma load_written cls repo cases w :
  load cls repo (written (file_path repo) (JList (asdict <$> cases)) w)
  = (Ok cases, written (file_path repo) (JList (asdict <$> cases)) w).
Proof.
  rewrite load_decode. f_equal.
  cbn [files written]. rewrite lookup_insert_eq. apply decode_saved.
Qed.

(** C4.  [save] succeeds, and a [load] from the same repository right after it
    returns the sequence that was saved: the same cases in the same order. *)
Theorem save_then_load (cls : ServiceCase_class) (repo : CaseRepository)
    (X : list ServiceCase) (w : world) :
  ∃ w', save repo X w = (Ok (), w') ∧ load cls repo w' = (Ok X, w').
Proof.
  eexists. split; [apply save_written|apply load_written].
Qed.

(** C5.  When the backing file does not exist, [load] returns the empty
    sequence; it raises nothing and leaves the world as it is. *)
Theorem load_missing_file (cls : ServiceCase_class) (repo : CaseRepository)
    (w : world) :
  files w !! file_path repo = None →
  load cls repo w = (Ok [], w).
Proof. intros E. by rewrite load_decode, E. Qed.

Lemma load_missing_file_example :
  files w_nofile !! file_path db = None
  ∧ load cls_import db w_nofile = (Ok [], w_nofile).
Proof.
  split; [reflexivity|].
  apply (load_missing_file cls_import db w_nofile). reflexivity.
Defined.

Lemma stored_decode cls p cases w :
  stored p cases w → decode cls (files w !! p) = Ok cases.
Proof. intros ->. apply decode_saved. Qed.

Lemma loaded_decode cls repo cases w :
  load cls repo w = (Ok cases, w) →
  decode cls (files w !! file_path repo) = Ok cases.
Proof. rewrite load_decode. by intros [= ->]. Qed.

(** ** The identifier policy *)

Lemma py_max_lower best items : best ≤ py_max best items.
Proof.
  revert best. induction items as [|x items IH]; intros best; cbn; [lia|].
  case_bool_decide; [etrans; [|apply IH]; lia | apply IH].
Qed.

Lemma py_max_upper best items : Forall (λ x, x ≤ py_max best items) items.
Proof.
  revert best. induction items as [|x items IH]; intros best; cbn; [constructor|].
  constructor; [|apply IH].
  case_bool_decide.
  - apply py_max_lower.
  - etrans; [|apply py_max_lower]. lia.
Qed.

Lemma py_max_elem best items : py_max best items ∈ best :: items.
Proof.
  revert best. induction items as [|x items IH]; intros best; cbn.
  - apply list_elem_of_here.
  - pose proof (IH (if bool_decide (best < x) then x else best)) as H.
    apply elem_of_cons in H as [Heq|Hin].
    + rewrite Heq. case_bool_decide.
      * apply list_elem_of_further, list_elem_of_here.
      * apply list_elem_of_here.
    + by do 2 apply list_elem_of_further.
Qed.

Lemma py_max_is_max best items : is_max (py_max best items) (best :: items).
Proof.
  split; [apply py_max_elem|].
  constructor; [apply py_max_lower|apply py_max_upper].
Qed.

Lemma is_max_unique m m' l : is_max m l → is_max m' l → m = m'.
Proof.
  intros [Hin Hub] [Hin' Hub'].
  rewrite Forall_forall in Hub, Hub'.
  apply Hub' in Hin. apply Hub in Hin'. lia.
Qed.

Lemma create_case_id_max c cs :
  is_max (_create_case_id (c :: cs) - 1) (case_id <$> c :: cs).
Proof.
  cbn [_create_case_id]. rewrite Z.add_simpl_r, fmap_cons. apply py_max_is_max.
Qed.

(** The new identifier is above every identifier in use. *)
Lemma create_case_id_above cases :
  Forall (λ c, case_id c < _create_case_id cases) cases.
Proof.
  destruct cases as [|c cs]; [constructor|].
  destruct (create_case_id_max c cs) as [_ Hub].
  rewrite Forall_fmap in Hub.
  eapply Forall_impl; [exact Hub|]. cbn. intros x Hx. lia.
Qed.

Lemma seq_is_max k : is_max (Z.of_nat (S k)) (Z.of_nat <$> seq 1 (S k)).
Proof.
  split.
  - apply list_elem_of_fmap. exists (S k). split; [done|].
    apply elem_of_seq. lia.
  - apply Forall_fmap, Forall_forall. intros x Hx%elem_of_seq. cbn. lia.
Qed.

Lemma create_case_id_seq cases k :
  case_id <$> cases = Z.of_nat <$> seq 1 k →
  _create_case_id cases = Z.of_nat (S k).
Proof.
  intros Hids. destruct cases as [|c cs].
  - destruct k; [done|discriminate].
  - destruct k as [|k]; [discriminate|].
    pose proof (create_case_id_max c cs) as Hmax. rewrite Hids in Hmax.
    pose proof (is_max_unique _ _ _ Hmax (seq_is_max k)). lia.
Qed.

(** ** [handle_add] *)

Lemma handle_add_decode cls f a repo cases w :
  decode cls (files w !! file_path repo) = Ok cases →
  handle_add cls (add_cmd f a) repo w
  = (Ok (),
     let new := new_case cls (_create_case_id cases) a in
     printed ("Fall #" +:+ pretty (case_id new) +:+ " erfolgreich angelegt.")
       (written (file_path repo) (JList (asdict <$> cases ++ [new])) w)).
Proof.
  intros Hd. destruct a as [[[[cn ce] pm] sn] idesc].
  unfold handle_add, bind. rewrite load_decode, Hd. reflexivity.
Qed.

Lemma main_add cls p a cases w :
  decode cls (files w !! p) = Ok cases →
  main cls (add_cmd p a) w
  = (Ok (),
     let new := new_case cls (_create_case_id cases) a in
     printed ("Fall #" +:+ pretty (case_id new) +:+ " erfolgreich angelegt.")
       (written p (JList (asdict <$> cases ++ [new])) w)).
Proof.
  intros Hd. destruct a as [[[[cn ce] pm] sn] idesc].
  apply (handle_add_decode cls p (cn, ce, pm, sn, idesc) {| file_path := p |}).
  exact Hd.
Qed.

Lemma new_case_id cls id a : case_id (new_case cls id a) = id.
Proof. by destruct a as [[[[cn ce] pm] sn] idesc]. Qed.

Lemma run_adds_from p adds : ∀ k cases w,
  stored p cases w →
  case_id <$> cases = Z.of_nat <$> seq 1 k →
  ∃ w', run (add_step p <$> adds) w = (Ok (), w')
    ∧ stored p
        (cases ++ imap (λ i x, new_case x.1 (Z.of_nat (S (k + i))) x.2) adds) w'.
Proof.
  induction adds as [|[cls a] adds IH]; intros k cases w Hst Hids.
  - exists w. split; [done|]. cbn. by rewrite app_nil_r.
  - cbn [fmap list_fmap add_step run fst snd]. unfold bind.
    rewrite (main_add cls p a cases w) by by apply stored_decode.
    rewrite (create_case_id_seq cases k Hids). cbn zeta.
    set (new := new_case cls (Z.of_nat (S k)) a).
    set (w1 := printed _ _).
    destruct (IH (S k) (cases ++ [new]) w1) as (w' & Hrun & Hst').
    + unfold stored, w1. cbn. apply lookup_insert_eq.
    + rewrite fmap_app, Hids, seq_S, fmap_app. f_equal. cbn.
      unfold new. by rewrite new_case_id.
    + exists w'. split; [done|].
      rewrite <- app_assoc in Hst'. cbn in Hst'. cbn [imap].
      rewrite Nat.add_0_r.
      erewrite imap_ext; [exact Hst'|].
      intros i x _. cbn. by rewrite Nat.add_succ_r.
Qed.

Lemma imap_new_case_ids (adds : list (ServiceCase_class * add_args)) : ∀ k,
  case_id <$> imap (λ i x, new_case x.1 (Z.of_nat (S (k + i))) x.2) adds
  = Z.of_nat <$> seq (S k) (length adds).
Proof.
  induction adds as [|x adds IH]; intros k; [done|].
  cbn [imap fmap list_fmap length seq]. rewrite new_case_id, Nat.add_0_r.
  f_equal. rewrite <- (IH (S k)). f_equal.
  apply imap_ext. intros i y _. cbn. by rewrite Nat.add_succ_r.
Qed.

(** C1.  The identifier for a new case is 1 for the empty collection and one
    more than the greatest [case_id] otherwise.  Hence [add] commands, run one
    after the other on an initialised empty store, all succeed and leave the
    cases in the order of the commands under the identifiers 1, 2, ..., N. *)
Theorem next_case_id_policy :
  _create_case_id [] = 1
  ∧ (∀ c cs, ∃ m,
       is_max m (case_id <$> c :: cs) ∧ _create_case_id (c :: cs) = m + 1)
  ∧ (∀ p adds w,
       files w !! p = Some (JList []) →
       ∃ w' cases,
         run (add_step p <$> adds) w = (Ok (), w')
         ∧ (∀ cls, load cls {| file_path := p |} w' = (Ok cases, w'))
         ∧ cases = imap (λ i x, new_case x.1 (Z.of_nat (S i)) x.2) adds
         ∧ case_id <$> cases = Z.of_nat <$> seq 1 (length adds)).
Proof.
  split; [reflexivity|]. split.
  - intros c cs. exists (_create_case_id (c :: cs) - 1).
    split; [apply create_case_id_max|lia].
  - intros p adds w Hw.
    destruct (run_adds_from p adds 0 [] w Hw eq_refl) as (w' & Hrun & Hst).
    cbn [app Nat.add] in Hst.
    eexists w', _. split; [exact Hrun|]. split; [|split; [reflexivity|]].
    + intros cls. rewrite load_decode. f_equal.
      by apply (stored_decode cls p).
    + apply (imap_new_case_ids adds 0).
Qed.

Lemma next_case_id_policy_example :
  files w_init !! file_path db = Some (JList [])
  ∧ ∃ w' cases,
      run (add_step (file_path db) <$> [(cls_import, jane); (cls_import, joe)])
        w_init = (Ok (), w')
      ∧ (∀ cls, load cls {| file_path := file_path db |} w' = (Ok cases, w'))
      ∧ cases = imap (λ i x, new_case x.1 (Z.of_nat (S i)) x.2)
                  [(cls_import, jane); (cls_import, joe)]
      ∧ case_id <$> cases
        = Z.of_nat <$> seq 1 (length [(cls_import, jane); (cls_import, joe)]).
Proof.
  split; [reflexivity|].
  apply (proj2 (proj2 next_case_id_policy)). reflexivity.
Defined.

(** ** [handle_update] *)

Lemma update_status_updated self new_status notes w :
  update_status self new_status notes w
  = (Ok (updated self new_status notes (clock w)), w).
Proof. unfold update_status, updated, bind, utcnow, ret. by destruct notes. Qed.

(** The loop falls through when no case it still has to visit matches. *)
Lemma loop_not_found wanted st notes repo cases todo : ∀ i w,
  Forall (λ c, case_id c ≠ wanted) todo →
  handle_update_loop wanted st notes repo cases i todo w
  = (Ok (), printed (not_found_line wanted) w).
Proof.
  induction todo as [|c todo IH]; intros i w Hne; [done|].
  apply Forall_cons in Hne as [Hc Hne]. cbn [handle_update_loop].
  rewrite bool_decide_eq_false_2 by done. by apply IH.
Qed.

(** The loop stops at the first case that matches, after [mid]. *)
Lemma loop_found wanted st notes repo cases mid c post : ∀ i w,
  Forall (λ c, case_id c ≠ wanted) mid →
  case_id c = wanted →
  handle_update_loop wanted st notes repo cases i (mid ++ c :: post) w
  = (Ok (),
     let c' := updated c st notes (clock w) in
     printed (updated_line c')
       (written (file_path repo)
          (JList (asdict <$> <[(i + length mid)%nat := c']> cases)) w)).
Proof.
  induction mid as [|x mid IH]; intros i w Hne Hc.
  - cbn [app handle_update_loop length]. rewrite bool_decide_eq_true_2 by done.
    unfold bind. rewrite update_status_updated, Nat.add_0_r. reflexivity.
  - apply Forall_cons in Hne as [Hx Hne]. cbn [app handle_update_loop].
    rewrite bool_decide_eq_false_2 by done.
    rewrite IH by done. cbn [length]. by rewrite Nat.add_succ_r.
Qed.

Lemma first_match_split wanted (cases : list ServiceCase) :
  Forall (λ c, case_id c ≠ wanted) cases
  ∨ ∃ pre c post, cases = pre ++ c :: post
      ∧ Forall (λ c, case_id c ≠ wanted) pre ∧ case_id c = wanted.
Proof.
  induction cases as [|x cases IH]; [by left|].
  destruct (decide (case_id x = wanted)) as [Heq|Hne].
  - right. exists [], x, cases. by repeat split.
  - destruct IH as [Hall|(pre & c & post & -> & Hpre & Hc)].
    + left. by constructor.
    + right. exists (x :: pre), c, post. repeat split; [|done]. by constructor.
Qed.

Lemma insert_middle (pre : list ServiceCase) c c' post :
  <[length pre := c']> (pre ++ c :: post) = pre ++ c' :: post.
Proof. by rewrite insert_app_r_alt, Nat.sub_diag by lia. Qed.

Lemma handle_update_decode cls f wanted st notes repo cases w :
  decode cls (files w !! file_path repo) = Ok cases →
  handle_update cls (NsUpdate f wanted st notes) repo w
  = handle_update_loop wanted st notes repo cases 0 cases w.
Proof. intros Hd. unfold handle_update, bind. by rewrite load_decode, Hd. Qed.

Lemma handle_update_found cls f repo pre c post st notes w :
  decode cls (files w !! file_path repo) = Ok (pre ++ c :: post) →
  Forall (λ x, case_id x ≠ case_id c) pre →
  handle_update cls (NsUpdate f (case_id c) st notes) repo w
  = (Ok (),
     let c' := updated c st notes (clock w) in
     printed (updated_line c')
       (written (file_path repo) (JList (asdict <$> pre ++ c' :: post)) w)).
Proof.
  intros Hd Hpre. rewrite (handle_update_decode _ _ _ _ _ _ _ _ Hd).
  rewrite loop_found by done. cbn [Nat.add]. by rewrite insert_middle.
Qed.

(** C6.  When the stored collection has no case under the requested
    identifier, the update raises nothing, prints that there is no such case,
    and writes nothing: the files are as they were and the trace gained the
    printed line only. *)
Theorem update_unknown_id (cls : ServiceCase_class) (repo : CaseRepository)
    (f : string) (wanted : Z) (new_status : string) (notes : option string)
    (cases : list ServiceCase) (w : world) :
  load cls repo w = (Ok cases, w) →
  wanted ∉ (case_id <$> cases) →
  ∃ w', handle_update cls (NsUpdate f wanted new_status notes) repo w = (Ok (), w')
    ∧ files w' = files w
    ∧ trace w'
      = trace w
        ++ [Stdout ("Kein Fall mit der ID " +:+ pretty wanted +:+ " gefunden.")].
Proof.
  intros Hload%loaded_decode Hnot.
  rewrite (handle_update_decode _ _ _ _ _ _ _ _ Hload).
  rewrite loop_not_found.
  - eexists. split; [reflexivity|]. by split.
  - apply Forall_forall. intros c Hc Heq. apply Hnot.
    apply list_elem_of_fmap. by exists c.
Qed.

Lemma update_unknown_id_example :
  load cls_import db w_dup = (Ok [case_a; case_b; case_c], w_dup)
  ∧ (7 ∉ (case_id <$> [case_a; case_b; case_c]))
  ∧ ∃ w', handle_update cls_import
            (NsUpdate (file_path db) 7 "closed" (Some "fixed")) db w_dup
          = (Ok (), w')
      ∧ files w' = files w_dup
      ∧ trace w'
        = trace w_dup
          ++ [Stdout ("Kein Fall mit der ID " +:+ pretty 7 +:+ " gefunden.")].
Proof.
  assert (load cls_import db w_dup = (Ok [case_a; case_b; case_c], w_dup)) as Hl
    by apply load_written.
  assert (7 ∉ (case_id <$> [case_a; case_b; case_c])) as Hn
    by (apply (bool_decide_unpack _); vm_compute; exact I).
  split; [exact Hl|]. split; [exact Hn|].
  exact (update_unknown_id cls_import db (file_path db) 7 "closed" (Some "fixed")
           [case_a; case_b; case_c] w_dup Hl Hn).
Defined.

(** C10.  When several loaded cases carry the requested identifier, the update
    changes the first of them in the order of the sequence and no other case:
    what is stored afterwards is the loaded sequence with that one case
    updated.  The trace gains one write, followed by the printed line. *)
Theorem update_first_match (cls : ServiceCase_class) (repo : CaseRepository)
    (f : string) (pre post : list ServiceCase) (c : ServiceCase)
    (new_status : string) (notes : option string) (w : world) :
  load cls repo w = (Ok (pre ++ c :: post), w) →
  Forall (λ x, case_id x ≠ case_id c) pre →
  ∃ w', handle_update cls (NsUpdate f (case_id c) new_status notes) repo w
        = (Ok (), w')
    ∧ load cls repo w'
      = (Ok (pre ++ updated c new_status notes (clock w) :: post), w')
    ∧ (∃ doc line, trace w' = trace w ++ [FileWrite (file_path repo) doc; Stdout line])
    ∧ writes (trace w') = S (writes (trace w)).
Proof.
  intros Hload%loaded_decode Hpre.
  rewrite (handle_update_found _ _ _ _ _ _ _ _ _ Hload Hpre). cbn zeta.
  eexists. split; [reflexivity|]. split; [|split].
  - rewrite load_decode. f_equal.
    cbn [files printed written]. rewrite lookup_insert_eq. apply decode_saved.
  - eexists _, _. cbn [trace printed written]. by rewrite <- app_assoc.
  - cbn [trace printed written]. unfold writes.
    rewrite !List.filter_app, !length_app. cbn. lia.
Qed.

Lemma update_first_match_example :
  load cls_import db w_dup = (Ok ([case_a] ++ case_b :: [case_c]), w_dup)
  ∧ Forall (λ x, case_id x ≠ case_id case_b) [case_a]
  ∧ case_id case_c = case_id case_b
  ∧ ∃ w', handle_update cls_import
            (NsUpdate (file_path db) (case_id case_b) "closed" None) db w_dup
          = (Ok (), w')
      ∧ load cls_import db w'
        = (Ok ([case_a] ++ updated case_b "closed" None (clock w_dup) :: [case_c]),
           w')
      ∧ (∃ doc line,
           trace w' = trace w_dup ++ [FileWrite (file_path db) doc; Stdout line])
      ∧ writes (trace w') = S (writes (trace w_dup)).
Proof.
  assert (load cls_import db w_dup = (Ok ([case_a] ++ case_b :: [case_c]), w_dup))
    as Hl by apply load_written.
  assert (Forall (λ x, case_id x ≠ case_id case_b) [case_a]) as Hpre
    by (by constructor).
  split; [exact Hl|]. split; [exact Hpre|]. split; [reflexivity|].
  exact (update_first_match cls_import db (file_path db) [case_a] [case_c] case_b
           "closed" None w_dup Hl Hpre).
Defined.

(** ** [handle_init] and [handle_list] *)

Lemma handle_init_absent repo w :
  files w !! file_path repo = None →
  handle_init repo w
  = (Ok (), printed ("Neue SAV-Datenbank erstellt: " +:+ file_path repo)
              (written (file_path repo) (JList []) w)).
Proof.
  intros E. unfold handle_init, exists_, bind. rewrite E.
  rewrite bool_decide_eq_false_2 by (by intros [? ?]). reflexivity.
Qed.

Lemma handle_init_present repo w :
  is_Some (files w !! file_path repo) →
  handle_init repo w
  = (Ok (), printed ("Datenbestand existiert bereits unter "
                     +:+ file_path repo +:+ ".") w).
Proof.
  intros E. unfold handle_init, exists_, bind.
  rewrite bool_decide_eq_true_2 by done. reflexivity.
Qed.

Lemma print_rows_files rows : ∀ w, files (print_rows rows w).2 = files w.
Proof.
  induction rows as [|c rows IH]; intros w; [done|].
  cbn [print_rows]. unfold bind. cbn. by rewrite IH.
Qed.

Lemma handle_list_files cls args repo w :
  files (handle_list cls args repo w).2 = files w.
Proof.
  unfold handle_list, bind. rewrite load_decode.
  destruct (decode cls (files w !! file_path repo)) as [cases|e]; [|done].
  destruct args as [| |f wanted|]; try done.
  destruct (filter _ cases) as [|c rows]; [done|].
  cbn. by rewrite print_rows_files.
Qed.

(** ** Distinct identifiers *)

Lemma unique_ids_files p w w' :
  files w' = files w → unique_ids p w → unique_ids p w'.
Proof. unfold unique_ids, stored. by intros ->. Qed.

Lemma unique_ids_cases p w :
  unique_ids p w →
  ∃ cases, (∀ cls, decode cls (files w !! p) = Ok cases)
    ∧ NoDup (case_id <$> cases).
Proof.
  intros [E|(cases & Hst & Hnd)].
  - exists []. rewrite E. split; [done|constructor].
  - exists cases. split; [|done]. intros cls. by apply stored_decode.
Qed.

Lemma NoDup_snoc_above (cases : list ServiceCase) new :
  NoDup (case_id <$> cases) →
  Forall (λ c, case_id c < case_id new) cases →
  NoDup (case_id <$> cases ++ [new]).
Proof.
  intros Hnd Hlt. rewrite fmap_app. apply NoDup_app. split; [done|]. split.
  - intros x Hx Hin. apply list_elem_of_fmap in Hx as (c & -> & Hc).
    rewrite Forall_forall in Hlt. apply Hlt in Hc.
    cbn in Hin. apply list_elem_of_singleton in Hin. lia.
  - cbn. apply NoDup_singleton.
Qed.

Lemma updated_ids pre c post st notes now :
  case_id <$> pre ++ updated c st notes now :: post = case_id <$> pre ++ c :: post.
Proof. by rewrite !fmap_app, !fmap_cons. Qed.

(** An [update] through [main] leaves the files alone or stores a collection
    with the identifiers it found, in their order. *)
Lemma main_update_decode cls p wanted st notes cases w :
  decode cls (files w !! p) = Ok cases →
  files (main cls (NsUpdate p wanted st notes) w).2 = files w
  ∨ ∃ cases', stored p cases' (main cls (NsUpdate p wanted st notes) w).2
      ∧ case_id <$> cases' = case_id <$> cases.
Proof.
  intros Hd.
  change (main cls (NsUpdate p wanted st notes) w)
    with (handle_update cls (NsUpdate p wanted st notes) {| file_path := p |} w).
  destruct (first_match_split wanted cases)
    as [Hall|(pre & c & post & -> & Hpre & <-)].
  - left.
    rewrite (handle_update_decode cls p wanted st notes {| file_path := p |} _ w Hd).
    by rewrite loop_not_found.
  - right.
    rewrite (handle_update_found cls p {| file_path := p |} pre c post st notes
               w Hd Hpre).
    eexists. split; [|apply updated_ids].
    unfold stored. cbn. apply lookup_insert_eq.
Qed.

Lemma unique_ids_main cls args w :
  unique_ids (data_file args) w → unique_ids (data_file args) (main cls args w).2.
Proof.
  intros Hinv.
  destruct args as [f|f cn ce pm sn idesc|f wanted|f wanted st notes];
    cbn [data_file] in *.
  - done.
  - destruct (unique_ids_cases f w Hinv) as (cases & Hd & Hnd).
    change (NsAdd f cn ce pm sn idesc) with (add_cmd f (cn, ce, pm, sn, idesc)).
    rewrite (main_add cls f _ cases w (Hd cls)). cbn zeta.
    right. eexists. split.
    + unfold stored. cbn. apply lookup_insert_eq.
    + apply NoDup_snoc_above; [done|].
      pose proof (create_case_id_above cases) as Habove.
      rewrite <- (new_case_id cls _ (cn, ce, pm, sn, idesc)) in Habove.
      exact Habove.
  - eapply unique_ids_files; [|exact Hinv]. apply handle_list_files.
  - destruct (unique_ids_cases f w Hinv) as (cases & Hd & Hnd).
    destruct (main_update_decode cls f wanted st notes cases w (Hd cls))
      as [Hf|(cases' & Hst & Hids)].
    + by eapply unique_ids_files.
    + right. exists cases'. split; [done|]. by rewrite Hids.
Qed.

Lemma unique_ids_init p w :
  unique_ids p w → unique_ids p (handle_init {| file_path := p |} w).2.
Proof.
  intros Hinv. destruct (files w !! p) as [doc|] eqn:E.
  - rewrite handle_init_present by (cbn; rewrite E; eauto).
    by eapply unique_ids_files.
  - rewrite handle_init_absent by done. right. exists []. split.
    + unfold stored. cbn. apply lookup_insert_eq.
    + constructor.
Qed.

Lemma reachable_unique_ids p w : reachable p w → unique_ids p w.
Proof.
  induction 1 as [w E|w E|w t _ IH|w _ IH|w cls args _ IH <-].
  - by left.
  - right. exists []. split; [done|constructor].
  - by eapply unique_ids_files.
  - by apply unique_ids_init.
  - by apply unique_ids_main.
Qed.

(** C8.  In every world the program's operations reach from an empty store,
    the stored collection loads and its [case_id] values are pairwise
    distinct.  The two steps that write keep it so: an [add] appends one case
    whose identifier is greater than every identifier present, and an [update]
    leaves the sequence of identifiers as it was. *)
Theorem case_ids_distinct (p : string) (w : world) :
  reachable p w →
  ∀ cls, ∃ cases,
    load cls {| file_path := p |} w = (Ok cases, w)
    ∧ NoDup (case_id <$> cases)
    ∧ (∀ cls' a, ∃ new,
         (load cls {| file_path := p |} (main cls' (add_cmd p a) w).2).1
         = Ok (cases ++ [new])
         ∧ Forall (λ c, case_id c < case_id new) cases)
    ∧ (∀ cls' wanted new_status notes, ∃ cases',
         (load cls {| file_path := p |}
            (main cls' (NsUpdate p wanted new_status notes) w).2).1
         = Ok cases'
         ∧ case_id <$> cases' = case_id <$> cases).
Proof.
  intros Hreach%reachable_unique_ids cls.
  destruct (unique_ids_cases p w Hreach) as (cases & Hd & Hnd).
  exists cases. split; [|split; [done|split]].
  - rewrite load_decode. cbn. by rewrite Hd.
  - intros cls' a. exists (new_case cls' (_create_case_id cases) a). split.
    + rewrite (main_add cls' p a cases w (Hd cls')). cbn zeta.
      rewrite load_decode. cbn. rewrite lookup_insert_eq. apply decode_saved.
    + rewrite new_case_id. apply create_case_id_above.
  - intros cls' wanted st notes.
    destruct (main_update_decode cls' p wanted st notes cases w (Hd cls'))
      as [Hf|(cases' & Hst & Hids)].
    + exists cases. split; [|done].
      rewrite load_decode. cbn [fst file_path]. by rewrite Hf, Hd.
    + exists cases'. split; [|done].
      rewrite load_decode. cbn [fst file_path]. by apply stored_decode.
Qed.

Lemma w_two_reachable : reachable (file_path db) w_two.
Proof.
  unfold w_two.
  apply reach_main; [|reflexivity].
  apply reach_main; [|reflexivity].
  apply reach_main; [|reflexivity].
  apply reach_clock.
  apply (reach_init (file_path db) w_nofile).
  apply reach_absent. reflexivity.
Defined.

Lemma case_ids_distinct_example :
  reachable (file_path db) w_two
  ∧ ∃ cases,
      load cls_import {| file_path := file_path db |} w_two = (Ok cases, w_two)
      ∧ NoDup (case_id <$> cases).
Proof.
  split; [exact w_two_reachable|].
  destruct (case_ids_distinct (file_path db) w_two w_two_reachable cls_import)
    as (cases & Hl & Hnd & _).
  exists cases. split; assumption.
Defined.

(** ** The [init] command *)

(** Called with the repository alone, [handle_init] creates the empty store
    where there is no file and leaves an existing file as it is. *)
Lemma handle_init_creates repo w :
  files w !! file_path repo = None →
  ∃ w', handle_init repo w = (Ok (), w')
    ∧ files w' = <[file_path repo := JList []]> (files w)
    ∧ ∀ cls, load cls repo w' = (Ok [], w').
Proof.
  intros E. rewrite handle_init_absent by done.
  eexists. split; [reflexivity|]. split; [reflexivity|].
  intros cls. rewrite load_decode. cbn. by rewrite lookup_insert_eq.
Qed.

Lemma handle_init_keeps repo w :
  is_Some (files w !! file_path repo) →
  ∃ w', handle_init repo w = (Ok (), w')
    ∧ files w' = files w
    ∧ trace w'
      = trace w ++ [Stdout ("Datenbestand existiert bereits unter "
                           +:+ file_path repo +:+ ".")].
Proof.
  intros E. rewrite handle_init_present by done.
  eexists. split; [reflexivity|]. by split.
Qed.

(** C9.  The [init] command as [main] dispatches it: [handle_init] is defined
    with the one parameter [repo] and [main] calls it as [args.func(args, repo)].
    The call raises [TypeError] before the handler starts: nothing is written
    and nothing is printed, whether the backing file exists or not.  The same
    holds for a run of the script. *)
Theorem init_command_raises (cls : ServiceCase_class) (p : string) (w : world) :
  main cls (NsInit p) w = (Raise TypeError, w)
  ∧ script (NsInit p) w = (Raise TypeError, w)
  ∧ files (script (NsInit p) w).2 !! p = files w !! p.
Proof. repeat split. Qed.

(** ** Default timestamps *)

(** A case built without timestamps carries those of the class statement. *)
Lemma ServiceCase_init_defaults cls id cn ce pm sn idesc st rn :
  created_at (ServiceCase_init cls id cn ce pm sn idesc st None None rn)
  = created_at_default cls
  ∧ updated_at (ServiceCase_init cls id cn ce pm sn idesc st None None rn)
    = updated_at_default cls.
Proof. by split. Qed.

Lemma define_ServiceCase_clock w :
  define_ServiceCase w
  = (Ok {| created_at_default := isoformat (clock w);
           updated_at_default := isoformat (clock w) |}, w).
Proof. reflexivity. Qed.

(** C2.  The class statement runs at [t_import] and its class object is
    [cls_import].  A case that [handle_add] builds when the clock shows
    [t_later] has the ISO text of [t_import] in [created_at] and [updated_at],
    not that of the time of its construction. *)
Theorem default_timestamps_frozen :
  define_ServiceCase w_nofile = (Ok cls_import, w_nofile)
  ∧ clock (set_clock t_later w_init) = t_later
  ∧ ∃ w' c,
      handle_add cls_import (add_cmd (file_path db) jane) db
        (set_clock t_later w_init) = (Ok (), w')
      ∧ load cls_import db w' = (Ok [c], w')
      ∧ created_at c = isoformat t_import
      ∧ updated_at c = isoformat t_import
      ∧ created_at c ≠ isoformat t_later
      ∧ updated_at c ≠ isoformat t_later.
Proof.
  split; [reflexivity|]. split; [reflexivity|].
  exists (handle_add cls_import (add_cmd (file_path db) jane) db
            (set_clock t_later w_init)).2,
         (new_case cls_import 1 jane).
  split; [vm_compute; reflexivity|].
  split; [vm_compute; reflexivity|].
  split; [reflexivity|]. split; [reflexivity|].
  split; vm_compute; discriminate.
Qed.

(** * Further properties of the code *)

(** ** Decoding records: [from_dict] and [load] *)

Lemma result_bind_TypeError {A B} (r : result A) (k : A → result B) :
  result_bind r k = Raise TypeError →
  r = Raise TypeError ∨ ∃ a, r = Ok a ∧ k a = Raise TypeError.
Proof.
  destruct r as [a|e]; cbn; [|intros [= ->]; by left].
  intros H. right. by exists a.
Qed.

Lemma positional_int_TypeError (d : gmap string json) k :
  positional as_int d k = Raise TypeError → d !! k = None.
Proof. unfold positional. destruct (d !! k) as [[]|]; by cbn. Qed.

Lemma positional_str_TypeError (d : gmap string json) k :
  positional as_str d k = Raise TypeError → d !! k = None.
Proof. unfold positional. destruct (d !! k) as [[]|]; by cbn. Qed.

Lemma keyword_str_TypeError (d : gmap string json) k :
  keyword as_str d k ≠ Raise TypeError.
Proof. unfold keyword. destruct (d !! k) as [[]|]; by cbn. Qed.

Lemma forallb_false_elem {A} (f : A → bool) (l : list A) :
  forallb f l = false → ∃ x, x ∈ l ∧ f x = false.
Proof.
  induction l as [|x l IH]; cbn; [done|].
  destruct (f x) eqn:Hx; cbn.
  - intros (y & Hy & Hf)%IH. exists y. split; [by apply list_elem_of_further|done].
  - intros _. exists x. split; [apply list_elem_of_here|done].
Qed.

Lemma required_present (d : gmap string json) :
  forallb (λ k, bool_decide (is_Some (d !! k))) required_names = true →
  ∀ k, k ∈ required_names → d !! k ≠ None.
Proof.
  intros H k Hk. rewrite forallb_forall in H.
  apply list_elem_of_In, H, bool_decide_eq_true in Hk. intros E. rewrite E in Hk.
  by destruct Hk.
Qed.

Lemma not_subseteq_elem (X : gset string) (l : list string) :
  ¬ X ⊆ list_to_set l → ∃ k, k ∈ X ∧ k ∉ l.
Proof.
  intros Hsub.
  destruct (decide (Forall (λ k, k ∈ l) (elements X))) as [Hall|Hex].
  - destruct Hsub. intros k Hk. apply elem_of_list_to_set.
    rewrite Forall_forall in Hall. by apply Hall, elem_of_elements.
  - apply not_Forall_Exists in Hex; [|apply _].
    apply Exists_exists in Hex as (k & Hk & Hn).
    exists k. split; [by apply elem_of_elements|done].
Qed.

(** X1.  [from_dict] raises [TypeError] on an object exactly when the object
    has a key that is no field of [ServiceCase] or lacks one of the six fields
    without default.  The four fields with a default may be absent, and the
    values are not inspected. *)
Theorem from_dict_TypeError (cls : ServiceCase_class) (d : gmap string json) :
  from_dict cls (JDict d) = Raise TypeError
  ↔ (∃ k, k ∈ dom d ∧ k ∉ field_names)
    ∨ (∃ k, k ∈ required_names ∧ d !! k = None).
Proof.
  unfold from_dict. split.
  - case_bool_decide as Hsub; cbn [negb].
    + destruct (forallb _ required_names) eqn:Hreq; cbn [negb].
      * intros H. exfalso. pose proof (required_present d Hreq) as Hp.
        repeat (apply result_bind_TypeError in H as [H|(? & _ & H)];
                [first [ apply positional_int_TypeError in H
                       | apply positional_str_TypeError in H
                       | by apply keyword_str_TypeError in H ];
                 revert H; apply Hp; unfold required_names;
                 repeat first [apply list_elem_of_here
                              | apply list_elem_of_further] |]).
        discriminate.
      * intros _. right.
        apply forallb_false_elem in Hreq as (k & Hk & Hf).
        exists k. split; [done|].
        apply bool_decide_eq_false in Hf.
        destruct (d !! k); [|done]. destruct Hf. eauto.
    + intros _. left. by apply not_subseteq_elem.
  - intros [(k & Hk & Hnf)|(k & Hk & Hnone)].
    + rewrite bool_decide_eq_false_2; [done|].
      intros Hsub. apply Hnf. apply Hsub in Hk.
      by apply elem_of_list_to_set in Hk.
    + case_bool_decide; [|done]. cbn [negb].
      destruct (forallb _ required_names) eqn:Hreq; [|done].
      by destruct (required_present d Hreq k Hk).
Qed.

Lemma from_dict_required_only cls (case : ServiceCase) :
  from_dict cls (required_only case) = Ok (with_defaults cls case).
Proof. destruct case, cls. vm_compute. reflexivity. Qed.

Lemma mapM_from_dict_required_only cls (cases : list ServiceCase) :
  mapM_result (from_dict cls) (required_only <$> cases)
  = Ok (with_defaults cls <$> cases).
Proof.
  induction cases as [|c cases IH]; [done|].
  rewrite !fmap_cons. cbn [mapM_result].
  by rewrite from_dict_required_only, IH.
Qed.

(** X2.  Records that hold the six required fields only are loaded with the
    defaults: status [open], empty notes, and for [created_at] and
    [updated_at] the two timestamps of the class object of the loading
    process. *)
Theorem load_required_only (cls : ServiceCase_class) (repo : CaseRepository)
    (cases : list ServiceCase) (w : world) :
  files w !! file_path repo = Some (JList (required_only <$> cases)) →
  ∃ loaded, load cls repo w = (Ok loaded, w)
    ∧ loaded = with_defaults cls <$> cases
    ∧ Forall (λ c, status c = "open" ∧ resolution_notes c = EmptyString
                   ∧ created_at c = created_at_default cls
                   ∧ updated_at c = updated_at_default cls) loaded.
Proof.
  intros E. exists (with_defaults cls <$> cases).
  split; [|split; [done|]].
  - rewrite load_decode, E. f_equal. apply mapM_from_dict_required_only.
  - apply Forall_fmap, Forall_forall. by intros c _.
Qed.

Lemma load_required_only_example :
  files (written (file_path db) (JList (required_only <$> [case_a; case_b]))
           w_nofile) !! file_path db
  = Some (JList (required_only <$> [case_a; case_b]))
  ∧ ∃ loaded,
      load cls_import db
        (written (file_path db) (JList (required_only <$> [case_a; case_b]))
           w_nofile)
      = (Ok loaded,
         written (file_path db) (JList (required_only <$> [case_a; case_b]))
           w_nofile)
      ∧ loaded = with_defaults cls_import <$> [case_a; case_b].
Proof.
  split; [apply lookup_insert_eq|].
  destruct (load_required_only cls_import db [case_a; case_b]
              (written (file_path db)
                 (JList (required_only <$> [case_a; case_b])) w_nofile)
              (lookup_insert_eq _ _ _)) as (loaded & Hl & Heq & _).
  exists loaded. split; assumption.
Defined.

(** X3.  A backing file that holds no list: the empty object and the empty
    string load as the empty collection, every other such document makes
    [load] raise [TypeError]; the world stays as it is. *)
Theorem load_not_a_list (cls : ServiceCase_class) (repo : CaseRepository)
    (doc : json) (w : world) :
  files w !! file_path repo = Some doc →
  (∀ l, doc ≠ JList l) →
  load cls repo w
  = (match doc with
     | JDict d => if decide (dom d = ∅) then Ok [] else Raise TypeError
     | JStr EmptyString => Ok []
     | _ => Raise TypeError
     end, w).
Proof.
  intros E Hnl. rewrite load_decode, E. f_equal. unfold decode.
  destruct doc as [|b|z|s|l|d]; try done.
  - by destruct s.
  - by destruct (Hnl l).
  - cbn [iterate result_bind].
    destruct (map_to_list d) as [|[k v] kvs] eqn:Hl.
    + apply map_to_list_empty_iff in Hl as ->.
      by rewrite decide_True by apply dom_empty_L.
    + rewrite decide_False; [done|].
      intros Hd. apply dom_empty_iff_L in Hd as ->.
      by rewrite map_to_list_empty in Hl.
Qed.

Lemma load_not_a_list_example :
  files w_number !! file_path db = Some (JInt 3)
  ∧ (∀ l, JInt 3 ≠ JList l)
  ∧ load cls_import db w_number = (Raise TypeError, w_number).
Proof.
  assert (∀ l, JInt 3 ≠ JList l) as Hnl by (intros l; discriminate).
  split; [reflexivity|]. split; [exact Hnl|].
  exact (load_not_a_list cls_import db (JInt 3) w_number eq_refl Hnl).
Defined.




(** ** [save] and the identifier policy *)

(** X5.  [save] replaces the file: after two saves [load] returns the sequence
    saved last, and what a repository on another path loads is not affected. *)
Theorem save_replaces (cls : ServiceCase_class) (repo other : CaseRepository)
    (X Y : list ServiceCase) (w : world) :
  file_path other ≠ file_path repo →
  let w' := (save repo Y (save repo X w).2).2 in
  load cls repo w' = (Ok Y, w')
  ∧ (load cls other w').1 = (load cls other w).1.
Proof.
  intros Hne. cbn zeta. rewrite !save_written. cbn [snd]. split.
  - apply load_written.
  - rewrite !load_decode. cbn [fst files written].
    by rewrite !lookup_insert_ne.
Qed.

Lemma save_replaces_example :
  file_path other_db ≠ file_path db
  ∧ let w' := (save db [case_b] (save db [case_a] w_nofile).2).2 in
    load cls_import db w' = (Ok [case_b], w')
    ∧ (load cls_import other_db w').1 = (load cls_import other_db w_nofile).1.
Proof.
  assert (file_path other_db ≠ file_path db) as Hne by discriminate.
  split; [exact Hne|].
  exact (save_replaces cls_import db other_db [case_a] [case_b] w_nofile Hne).
Defined.

Lemma is_max_perm m l l' : l ≡ₚ l' → is_max m l → is_max m l'.
Proof. intros Hp [Hin Hub]. split; by rewrite <- Hp. Qed.

(** X6.  The next identifier depends on the identifiers present only, not on
    the order of the cases: two collections whose [case_id] values are a
    permutation of each other get the same next identifier. *)
Theorem create_case_id_permutation (cases cases' : list ServiceCase) :
  case_id <$> cases ≡ₚ case_id <$> cases' →
  _create_case_id cases = _create_case_id cases'.
Proof.
  intros Hp. destruct cases as [|c cs], cases' as [|c' cs'].
  - done.
  - apply Permutation_length in Hp. done.
  - apply Permutation_length in Hp. done.
  - pose proof (create_case_id_max c cs) as Hm.
    pose proof (create_case_id_max c' cs') as Hm'.
    apply (is_max_perm _ _ _ Hp) in Hm.
    pose proof (is_max_unique _ _ _ Hm Hm'). lia.
Qed.

Lemma create_case_id_permutation_example :
  case_id <$> [case_a; case_b] ≡ₚ case_id <$> [case_b; case_a]
  ∧ _create_case_id [case_a; case_b] = _create_case_id [case_b; case_a].
Proof.
  assert (case_id <$> [case_a; case_b] ≡ₚ case_id <$> [case_b; case_a]) as Hp
    by apply Permutation_swap.
  split; [exact Hp|].
  exact (create_case_id_permutation [case_a; case_b] [case_b; case_a] Hp).
Defined.

(** ** The handlers *)

Lemma writes_app tr tr' : writes (tr ++ tr') = (writes tr + writes tr')%nat.
Proof. unfold writes. by rewrite List.filter_app, length_app. Qed.

Lemma writes_Stdout_fmap {A} (f : A → string) (l : list A) :
  writes (Stdout ∘ f <$> l) = 0%nat.
Proof. induction l as [|x l IH]; [done|]. exact IH. Qed.

(** X7.  Called with the repository, [handle_init] always returns.  Where
    there is no file it creates one that holds the empty list; a file that
    exists keeps its content, whatever it is.  A second call right after
    changes no file and writes nothing. *)
Theorem handle_init_idempotent (repo : CaseRepository) (w : world) :
  ∃ w' w'',
    handle_init repo w = (Ok (), w')
    ∧ files w'
      = match files w !! file_path repo with
        | Some _ => files w
        | None => <[file_path repo := JList []]> (files w)
        end
    ∧ handle_init repo w' = (Ok (), w'')
    ∧ files w'' = files w'
    ∧ writes (trace w'') = writes (trace w').
Proof.
  destruct (files w !! file_path repo) as [doc|] eqn:E.
  - rewrite handle_init_present by (rewrite E; eauto).
    eexists _, _. split; [reflexivity|]. split; [reflexivity|].
    rewrite handle_init_present by (cbn; rewrite E; eauto).
    split; [reflexivity|]. split; [reflexivity|].
    cbn [trace printed]. rewrite writes_app. cbn. lia.
  - rewrite handle_init_absent by done.
    eexists _, _. split; [reflexivity|]. split; [reflexivity|].
    rewrite handle_init_present by (cbn; rewrite lookup_insert_eq; eauto).
    split; [reflexivity|]. split; [reflexivity|].
    cbn [trace printed]. rewrite writes_app. cbn. lia.
Qed.



Lemma print_rows_run rows : ∀ w,
  print_rows rows w
  = (Ok (), {| files := files w; clock := clock w;
               trace := trace w ++ (Stdout ∘ row_line <$> rows) |}).
Proof.
  induction rows as [|c rows IH]; intros w.
  - cbn. rewrite app_nil_r. by destruct w.
  - cbn [print_rows]. unfold bind. cbn [print]. rewrite IH. cbn.
    by rewrite <- app_assoc.
Qed.

Lemma handle_list_decode cls f wanted repo cases w :
  decode cls (files w !! file_path repo) = Ok cases →
  handle_list cls (NsList f wanted) repo w
  = (Ok (),
     {| files := files w; clock := clock w;
        trace := trace w ++
          match filter (λ case, wanted = None ∨ wanted = Some (status case))
                  cases with
          | [] =>
              [Stdout ("Keine Fälle"
                       +:+ match wanted with
                           | None | Some EmptyString => EmptyString
                           | Some s => " mit Status '" +:+ s +:+ "'"
                           end
                       +:+ " gefunden.")]
          | shown =>
              Stdout header_line :: Stdout (dashes 85)
              :: (Stdout ∘ row_line <$> shown)
          end |}).
Proof.
  intros Hd. unfold handle_list, bind. rewrite load_decode, Hd.
  destruct (filter _ cases) as [|c rows]; [done|].
  cbn [print]. rewrite print_rows_run. cbn. by rewrite <- !app_assoc.
Qed.








(** X11.  When [handle_update] finds the case it writes once, the loaded
    sequence with the first match updated, and then prints a line with the
    identifier and the new status. *)
Theorem handle_update_reports (cls : ServiceCase_class) (repo : CaseRepository)
    (f : string) (pre post : list ServiceCase) (c : ServiceCase)
    (new_status : string) (notes : option string) (w : world) :
  load cls repo w = (Ok (pre ++ c :: post), w) →
  Forall (λ x, case_id x ≠ case_id c) pre →
  ∃ w', handle_update cls (NsUpdate f (case_id c) new_status notes) repo w
        = (Ok (), w')
    ∧ trace w'
      = trace w
        ++ [FileWrite (file_path repo)
              (JList (asdict <$> pre ++ updated c new_status notes (clock w)
                                        :: post));
            Stdout ("Fall #" +:+ pretty (case_id c) +:+ " aktualisiert (Status: "
                    +:+ new_status +:+ ").")].
Proof.
  intros Hload%loaded_decode Hpre.
  rewrite (handle_update_found _ _ _ _ _ _ _ _ _ Hload Hpre). cbn zeta.
  eexists. split; [reflexivity|].
  cbn [trace printed written]. by rewrite <- app_assoc.
Qed.

Lemma handle_update_reports_example :
  load cls_import db w_dup = (Ok ([case_a] ++ case_b :: [case_c]), w_dup)
  ∧ Forall (λ x, case_id x ≠ case_id case_b) [case_a]
  ∧ ∃ w', handle_update cls_import
            (NsUpdate (file_path db) (case_id case_b) "closed" None) db w_dup
          = (Ok (), w')
      ∧ trace w'
        = trace w_dup
          ++ [FileWrite (file_path db)
                (JList (asdict <$> [case_a]
                          ++ updated case_b "closed" None (clock w_dup)
                             :: [case_c]));
              Stdout ("Fall #" +:+ pretty (case_id case_b)
                      +:+ " aktualisiert (Status: " +:+ "closed" +:+ ").")].
Proof.
  assert (load cls_import db w_dup = (Ok ([case_a] ++ case_b :: [case_c]), w_dup))
    as Hl by apply load_written.
  assert (Forall (λ x, case_id x ≠ case_id case_b) [case_a]) as Hpre
    by (constructor; [discriminate|constructor]).
  split; [exact Hl|]. split; [exact Hpre|].
  destruct (handle_update_reports cls_import db (file_path db) [case_a] [case_c]
              case_b "closed" None w_dup Hl Hpre) as (w' & H1 & H2).
  exists w'. split; [exact H1|exact H2].
Defined.

(** X12.  Two status updates in a row leave what one update with the second
    status leaves; the notes are those of the second update when it gives
    notes, and otherwise those the first update left. *)
Theorem update_status_twice (self : ServiceCase) (s1 s2 : string)
    (n1 n2 : option string) (w : world) :
  (c <- update_status self s1 n1 ;; update_status c s2 n2) w
  = update_status self s2 (match n2 with Some n => Some n | None => n1 end) w.
Proof.
  unfold bind. rewrite !update_status_updated.
  by destruct n1, n2.
Qed.



(** ** [main] *)

Lemma load_raise_decode cls repo e w :
  load cls repo w = (Raise e, w) →
  decode cls (files w !! file_path repo) = Raise e.
Proof. rewrite load_decode. by intros [= ->]. Qed.

Lemma handle_update_raise cls args repo e w :
  decode cls (files w !! file_path repo) = Raise e →
  handle_update cls args repo w = (Raise e, w).
Proof. intros Hd. unfold handle_update, bind. by rewrite load_decode, Hd. Qed.

Lemma handle_add_raise cls args repo e w :
  decode cls (files w !! file_path repo) = Raise e →
  handle_add cls args repo w = (Raise e, w).
Proof. intros Hd. unfold handle_add, bind. by rewrite load_decode, Hd. Qed.

Lemma handle_list_raise cls args repo e w :
  decode cls (files w !! file_path repo) = Raise e →
  handle_list cls args repo w = (Raise e, w).
Proof. intros Hd. unfold handle_list, bind. by rewrite load_decode, Hd. Qed.

(** X14.  When the backing file does not load, the [add], [list] and [update]
    commands raise the [TypeError] of [load] and leave the world as it is:
    the file that could not be read is not written and nothing is printed. *)
Theorem unreadable_store_untouched (cls : ServiceCase_class) (args : Namespace)
    (w : world) :
  load cls {| file_path := data_file args |} w = (Raise TypeError, w) →
  (∀ f, args ≠ NsInit f) →
  main cls args w = (Raise TypeError, w).
Proof.
  intros Hd%load_raise_decode Hni. cbn [file_path] in Hd.
  destruct args as [f|f cn ce pm sn idesc|f wanted|f wanted st notes].
  - by destruct (Hni f).
  - by apply (handle_add_raise cls _ {| file_path := f |}).
  - by apply (handle_list_raise cls _ {| file_path := f |}).
  - by apply (handle_update_raise cls _ {| file_path := f |}).
Qed.

Lemma unreadable_store_untouched_example :
  load cls_import {| file_path := data_file (add_cmd (file_path db) jane) |}
    w_number = (Raise TypeError, w_number)
  ∧ (∀ f, add_cmd (file_path db) jane ≠ NsInit f)
  ∧ main cls_import (add_cmd (file_path db) jane) w_number
    = (Raise TypeError, w_number).
Proof.
  assert (load cls_import
            {| file_path := data_file (add_cmd (file_path db) jane) |} w_number
          = (Raise TypeError, w_number)) as Hl by reflexivity.
  assert (∀ f, add_cmd (file_path db) jane ≠ NsInit f) as Hni
    by (intros f; discriminate).
  split; [exact Hl|]. split; [exact Hni|].
  exact (unreadable_store_untouched cls_import (add_cmd (file_path db) jane)
           w_number Hl Hni).
Defined.

(** What an [update] through [main] does on a store that decodes. *)
Lemma main_update_outcome cls p wanted st notes cases w :
  decode cls (files w !! p) = Ok cases →
  main cls (NsUpdate p wanted st notes) w
    = (Ok (), printed (not_found_line wanted) w)
  ∨ ∃ pre c post,
      cases = pre ++ c :: post
      ∧ main cls (NsUpdate p wanted st notes) w
        = (Ok (),
           printed (updated_line (updated c st notes (clock w)))
             (written p
                (JList (asdict <$> pre ++ updated c st notes (clock w) :: post))
                w)).
Proof.
  intros Hd.
  change (main cls (NsUpdate p wanted st notes) w)
    with (handle_update cls (NsUpdate p wanted st notes) {| file_path := p |} w).
  destruct (first_match_split wanted cases)
    as [Hall|(pre & c & post & -> & Hpre & <-)].
  - left.
    rewrite (handle_update_decode cls p wanted st notes {| file_path := p |} _ w Hd).
    by rewrite loop_not_found.
  - right. exists pre, c, post. split; [done|].
    by rewrite (handle_update_found cls p {| file_path := p |} pre c post st notes
                  w Hd Hpre).
Qed.



(** Whatever the command and the store: [main] leaves the files on other paths
    and the clock, and appends to the trace, at most one write. *)
Lemma main_effect cls args w :
  (∀ q, q ≠ data_file args → files (main cls args w).2 !! q = files w !! q)
  ∧ clock (main cls args w).2 = clock w
  ∧ ∃ evs, trace (main cls args w).2 = trace w ++ evs ∧ (writes evs ≤ 1)%nat.
Proof.
  assert (∀ w0 : world,
    (∀ q, q ≠ data_file args → files w0 !! q = files w0 !! q)
    ∧ clock w0 = clock w0
    ∧ ∃ evs, trace w0 = trace w0 ++ evs ∧ (writes evs ≤ 1)%nat) as Hsame.
  { intros w0. split; [done|]. split; [done|].
    exists []. split; [by rewrite app_nil_r|cbn; lia]. }
  destruct args as [f|f cn ce pm sn idesc|f wanted|f wanted st notes];
    cbn [data_file] in *.
  - apply Hsame.
  - change (NsAdd f cn ce pm sn idesc) with (add_cmd f (cn, ce, pm, sn, idesc)).
    destruct (decode cls (files w !! f)) as [cases|e] eqn:Hd.
    + rewrite (main_add cls f _ cases w Hd). cbn zeta. cbn [snd].
      split; [|split; [done|]].
      * intros q Hq. cbn. by rewrite lookup_insert_ne.
      * eexists [_; _]. cbn. split; [by rewrite <- app_assoc|done].
    + change (main cls (add_cmd f (cn, ce, pm, sn, idesc)) w)
        with (handle_add cls (add_cmd f (cn, ce, pm, sn, idesc))
                {| file_path := f |} w).
      rewrite (handle_add_raise cls _ {| file_path := f |} e w Hd). apply Hsame.
  - change (main cls (NsList f wanted) w)
      with (handle_list cls (NsList f wanted) {| file_path := f |} w).
    destruct (decode cls (files w !! f)) as [cases|e] eqn:Hd.
    + rewrite (handle_list_decode cls f wanted {| file_path := f |} cases w Hd).
      cbn [snd files clock trace]. split; [done|]. split; [done|].
      eexists. split; [reflexivity|].
      destruct (filter _ cases) as [|c shown]; cbn; [lia|].
      unfold writes. cbn. fold (writes (Stdout ∘ row_line <$> shown)).
      rewrite writes_Stdout_fmap. lia.
    + rewrite (handle_list_raise cls _ {| file_path := f |} e w Hd). apply Hsame.
  - destruct (decode cls (files w !! f)) as [cases|e] eqn:Hd.
    + destruct (main_update_outcome cls f wanted st notes cases w Hd)
        as [->|(pre & c & post & _ & ->)]; cbn [snd].
      * split; [done|]. split; [done|].
        eexists [_]. split; [reflexivity|cbn; lia].
      * split; [|split; [done|]].
        -- intros q Hq. cbn. by rewrite lookup_insert_ne.
        -- eexists [_; _]. cbn. split; [by rewrite <- app_assoc|done].
    + change (main cls (NsUpdate f wanted st notes) w)
        with (handle_update cls (NsUpdate f wanted st notes)
                {| file_path := f |} w).
      rewrite (handle_update_raise cls _ {| file_path := f |} e w Hd).
      apply Hsame.
Qed.

(** X16.  [main] touches no file but the one at [args.data_file]: whatever the
    command, the store and the outcome, the content of every other path is
    afterwards what it was. *)
Theorem main_other_files (cls : ServiceCase_class) (args : Namespace)
    (w : world) (q : string) :
  q ≠ data_file args →
  files (main cls args w).2 !! q = files w !! q.
Proof. intros Hq. by apply main_effect. Qed.

Lemma main_other_files_example :
  file_path other_db ≠ data_file (add_cmd (file_path db) jane)
  ∧ files (main cls_import (add_cmd (file_path db) jane) w_dup).2
      !! file_path other_db
    = files w_dup !! file_path other_db.
Proof.
  assert (file_path other_db ≠ data_file (add_cmd (file_path db) jane)) as Hq
    by discriminate.
  split; [exact Hq|].
  exact (main_other_files cls_import (add_cmd (file_path db) jane) w_dup
           (file_path other_db) Hq).
Defined.

(** X17.  Whatever the command, the store and the outcome, [main] only adds
    to the trace, and among what it adds there is at most one write; it does
    not move the clock. *)
Theorem main_appends (cls : ServiceCase_class) (args : Namespace) (w : world) :
  clock (main cls args w).2 = clock w
  ∧ ∃ evs, trace (main cls args w).2 = trace w ++ evs ∧ (writes evs ≤ 1)%nat.
Proof. apply main_effect. Qed.

(** ** Consecutive identifiers *)

Lemma consecutive_ids_files p w w' :
  files w' = files w → consecutive_ids p w → consecutive_ids p w'.
Proof. unfold consecutive_ids, stored. by intros ->. Qed.

Lemma consecutive_ids_cases p w :
  consecutive_ids p w →
  ∃ cases, (∀ cls, decode cls (files w !! p) = Ok cases)
    ∧ case_id <$> cases = Z.of_nat <$> seq 1 (length cases).
Proof.
  intros [E|(cases & Hst & Hids)].
  - exists []. rewrite E. by split.
  - exists cases. split; [|done]. intros cls. by apply stored_decode.
Qed.

Lemma consecutive_ids_main cls args w :
  consecutive_ids (data_file args) w →
  consecutive_ids (data_file args) (main cls args w).2.
Proof.
  intros Hinv.
  destruct args as [f|f cn ce pm sn idesc|f wanted|f wanted st notes];
    cbn [data_file] in *.
  - done.
  - destruct (consecutive_ids_cases f w Hinv) as (cases & Hd & Hids).
    change (NsAdd f cn ce pm sn idesc) with (add_cmd f (cn, ce, pm, sn, idesc)).
    rewrite (main_add cls f _ cases w (Hd cls)). cbn zeta.
    right. eexists. split.
    + unfold stored. cbn. apply lookup_insert_eq.
    + rewrite (create_case_id_seq cases _ Hids).
      rewrite fmap_app, length_app, Nat.add_1_r, seq_S, fmap_app, <- Hids.
      reflexivity.
  - eapply consecutive_ids_files; [|exact Hinv]. apply handle_list_files.
  - destruct (consecutive_ids_cases f w Hinv) as (cases & Hd & Hids).
    destruct (main_update_decode cls f wanted st notes cases w (Hd cls))
      as [Hf|(cases' & Hst & Hids')].
    + by eapply consecutive_ids_files.
    + right. exists cases'. split; [done|].
      rewrite Hids', Hids. do 2 f_equal.
      by rewrite <- (length_fmap case_id cases), <- Hids', length_fmap.
Qed.

Lemma consecutive_ids_init p w :
  consecutive_ids p w → consecutive_ids p (handle_init {| file_path := p |} w).2.
Proof.
  intros Hinv. destruct (files w !! p) as [doc|] eqn:E.
  - rewrite handle_init_present by (cbn; rewrite E; eauto).
    by eapply consecutive_ids_files.
  - rewrite handle_init_absent by done. right. exists []. split; [|done].
    unfold stored. cbn. apply lookup_insert_eq.
Qed.

Lemma reachable_consecutive_ids p w : reachable p w → consecutive_ids p w.
Proof.
  induction 1 as [w E|w E|w t _ IH|w _ IH|w cls args _ IH <-].
  - by left.
  - right. by exists [].
  - by eapply consecutive_ids_files.
  - by apply consecutive_ids_init.
  - by apply consecutive_ids_main.
Qed.

(** X18.  The program has no operation that removes a case, so in every world
    it reaches from an empty store the identifiers are 1, 2, ..., n in the
    order of the store: the case at position [i], counted from 0, has the
    identifier [i + 1]. *)
Theorem case_ids_consecutive (p : string) (w : world) :
  reachable p w →
  ∀ cls, ∃ cases,
    load cls {| file_path := p |} w = (Ok cases, w)
    ∧ case_id <$> cases = Z.of_nat <$> seq 1 (length cases)
    ∧ ∀ i c, cases !! i = Some c → case_id c = Z.of_nat (S i).
Proof.
  intros Hreach%reachable_consecutive_ids cls.
  destruct (consecutive_ids_cases p w Hreach) as (cases & Hd & Hids).
  exists cases. split; [|split; [done|]].
  - rewrite load_decode. cbn. by rewrite Hd.
  - intros i c Hc.
    assert ((case_id <$> cases) !! i = Some (case_id c)) as Hi
      by (by rewrite list_lookup_fmap, Hc).
    rewrite Hids, list_lookup_fmap in Hi.
    destruct (seq 1 (length cases) !! i) as [n|] eqn:Hn; [|done].
    apply lookup_seq in Hn as [-> _]. by injection Hi as <-.
Qed.

Lemma case_ids_consecutive_example :
  reachable (file_path db) w_two
  ∧ ∃ cases,
      load cls_import {| file_path := file_path db |} w_two = (Ok cases, w_two)
      ∧ case_id <$> cases = Z.of_nat <$> seq 1 (length cases).
Proof.
  split; [exact w_two_reachable|].
  destruct (case_ids_consecutive (file_path db) w_two w_two_reachable cls_import)
    as (cases & Hl & Hids & _).
  exists cases. split; assumption.
Defined.
